(** * The DHT token manager and contact store of lbry.go

    A shallow embedding of [dht/token_manager.go] and [dht/store.go].

    - [Sha256] is FIPS 180-4 SHA-256 over byte lists, the function behind
      Go's [sha256.Sum256]; 32-bit words are [Z] with the wrap-around
      written out.
    - [TokenManager] embeds [genToken], [Get], [Verify], [rotateSecret]
      and [Start].  The bytes delivered by [crypto/rand] are an explicit
      input of every step that reads them.
    - [Store] embeds the contact store over stdpp's [gmap].  The wall
      clock is an explicit input ([now]) and a call is taken at one
      instant; the package constant [tExpire] (config.go has it commented
      out, its live declaration is elsewhere in the package) is a section
      variable. *)

From Stdlib Require Import ZArith NArith List Lia Bool.
From Stdlib Require Import Strings.Byte Strings.String.
From Stdlib Require Import Numbers.DecimalString Numbers.DecimalZ Numbers.DecimalPos.
From stdpp Require Import base option list finite gmap fin_maps.

(** ** Bytes *)

Module Bytes.

Definition byte_to_Z (b : byte) : Z := Z.of_N (Byte.to_N b).

(** Truncating conversion, as Go's [byte(x)] on an unsigned value. *)
Definition byte_of_N (n : N) : byte :=
  match Byte.of_N (n mod 256)%N with
  | Some b => b
  | None => x00
  end.

Definition byte_of_Z (z : Z) : byte := byte_of_N (Z.to_N (z mod 256)).

Definition zeros (n : nat) : list byte := replicate n x00.

#[global] Instance byte_eq_dec : EqDecision byte := Byte.byte_eq_dec.

#[global] Program Instance byte_countable : Countable byte :=
  inj_countable' Byte.to_N byte_of_N _.
Next Obligation.
  intros b. unfold byte_of_N.
  rewrite N.mod_small by (pose proof (Byte.to_N_bounded b); lia).
  by rewrite Byte.of_to_N.
Qed.

(** Byte strings of a fixed length as numbers, least significant byte
    first; used to count them. *)
Definition le_decode (l : list byte) : N :=
  foldr (fun b acc => Byte.to_N b + 256 * acc)%N 0%N l.

Fixpoint le_encode (k : nat) (n : N) : list byte :=
  match k with
  | O => []
  | S k' => byte_of_N n :: le_encode k' (n / 256)
  end.

(** [bits.Bitmap] is the byte array [[48]byte] of package [bits]; it is
    modelled by its content, [nodeID[:]]. *)
Abbreviation Bitmap := (list byte).

End Bytes.

(** ** SHA-256 *)

Module Sha256.
Import Bytes.
Local Open Scope Z_scope.

Definition wrap32 (x : Z) : Z := x mod 2 ^ 32.
Definition add32 (x y : Z) : Z := wrap32 (x + y).
Definition not32 (x : Z) : Z := Z.lxor x (2 ^ 32 - 1).
Definition shr (n x : Z) : Z := Z.shiftr x n.
Definition rotr (n x : Z) : Z :=
  Z.lor (Z.shiftr x n) (wrap32 (Z.shiftl x (32 - n))).

Definition Ch (x y z : Z) : Z := Z.lxor (Z.land x y) (Z.land (not32 x) z).
Definition Maj (x y z : Z) : Z :=
  Z.lxor (Z.lxor (Z.land x y) (Z.land x z)) (Z.land y z).
Definition bsig0 (x : Z) : Z := Z.lxor (Z.lxor (rotr 2 x) (rotr 13 x)) (rotr 22 x).
Definition bsig1 (x : Z) : Z := Z.lxor (Z.lxor (rotr 6 x) (rotr 11 x)) (rotr 25 x).
Definition ssig0 (x : Z) : Z := Z.lxor (Z.lxor (rotr 7 x) (rotr 18 x)) (shr 3 x).
Definition ssig1 (x : Z) : Z := Z.lxor (Z.lxor (rotr 17 x) (rotr 19 x)) (shr 10 x).

(** The constants, as FIPS 180-4 defines them: the first 32 bits of the
    fractional parts of the cube roots of the first 64 primes, and for the
    initial chaining value of the square roots of the first 8. *)
Definition is_prime (n : nat) : bool :=
  forallb (fun d => negb (n mod d =? 0)%nat) (seq 2 (n - 2)).

Definition primes (bound : nat) : list Z :=
  map Z.of_nat (List.filter is_prime (seq 2 bound)).

(** The integer [k]-th root, one bit at a time from bit [bits - 1] down. *)
Fixpoint root_from (k n : Z) (bits : nat) (r : Z) : Z :=
  match bits with
  | O => r
  | S b =>
      let c := r + 2 ^ Z.of_nat b in
      root_from k n b (if c ^ k <=? n then c else r)
  end.

Definition frac32_root (k p : Z) : Z :=
  wrap32 (root_from k (p * 2 ^ (32 * k)) 40 0).

Definition K : list Z :=
  Eval vm_compute in map (frac32_root 3) (primes 310).

(** The eight working variables, also the chaining value. *)
Record regs : Type := Regs {
  ra : Z; rb : Z; rc : Z; rd : Z; re : Z; rf : Z; rg : Z; rh : Z
}.

Definition regs_of_list (l : list Z) : regs :=
  Regs (nth 0 l 0) (nth 1 l 0) (nth 2 l 0) (nth 3 l 0)
       (nth 4 l 0) (nth 5 l 0) (nth 6 l 0) (nth 7 l 0).

Definition H0 : regs :=
  Eval vm_compute in regs_of_list (map (frac32_root 2) (primes 18)).

(** Big-endian words. *)
Definition word_of_bytes (b3 b2 b1 b0 : byte) : Z :=
  byte_to_Z b3 * 2 ^ 24 + byte_to_Z b2 * 2 ^ 16 + byte_to_Z b1 * 2 ^ 8 + byte_to_Z b0.

Definition bytes_of_word (w : Z) : list byte :=
  [ byte_of_Z (Z.shiftr w 24); byte_of_Z (Z.shiftr w 16);
    byte_of_Z (Z.shiftr w 8); byte_of_Z w ].

Fixpoint words_of_bytes (l : list byte) : list Z :=
  match l with
  | b3 :: b2 :: b1 :: b0 :: l' => word_of_bytes b3 b2 b1 b0 :: words_of_bytes l'
  | _ => []
  end.

(** Padding: a 1 bit, zeros up to 56 mod 64, the bit length on 8 bytes. *)
Definition length_bytes (bits : Z) : list byte :=
  map (fun i => byte_of_Z (Z.shiftr bits (8 * Z.of_nat i)))
      [7; 6; 5; 4; 3; 2; 1; 0]%nat.

Definition pad_zeros (len : nat) : nat := Z.to_nat ((55 - Z.of_nat len) mod 64).

Definition pad (msg : list byte) : list byte :=
  msg ++ x80 :: zeros (pad_zeros (length msg))
      ++ length_bytes (8 * Z.of_nat (length msg)).

(** Message schedule.  [sched] is kept newest first, so that W(t-2),
    W(t-7), W(t-15) and W(t-16) sit at offsets 1, 6, 14 and 15. *)
Definition next_w (sched : list Z) : Z :=
  add32 (add32 (ssig1 (nth 1 sched 0)) (nth 6 sched 0))
        (add32 (ssig0 (nth 14 sched 0)) (nth 15 sched 0)).

Fixpoint extend (n : nat) (sched : list Z) : list Z :=
  match n with
  | O => sched
  | S n' => extend n' (next_w sched :: sched)
  end.

Definition schedule (block : list byte) : list Z :=
  rev (extend 48 (rev (words_of_bytes block))).

Definition round (r : regs) (kw : Z * Z) : regs :=
  let t1 := add32 (add32 (add32 (rh r) (bsig1 (re r)))
                         (add32 (Ch (re r) (rf r) (rg r)) (fst kw))) (snd kw) in
  let t2 := add32 (bsig0 (ra r)) (Maj (ra r) (rb r) (rc r)) in
  Regs (add32 t1 t2) (ra r) (rb r) (rc r) (add32 (rd r) t1) (re r) (rf r) (rg r).

Definition add_regs (x y : regs) : regs :=
  Regs (add32 (ra x) (ra y)) (add32 (rb x) (rb y))
       (add32 (rc x) (rc y)) (add32 (rd x) (rd y))
       (add32 (re x) (re y)) (add32 (rf x) (rf y))
       (add32 (rg x) (rg y)) (add32 (rh x) (rh y)).

Definition compress (h : regs) (block : list byte) : regs :=
  add_regs h (fold_left round (combine K (schedule block)) h).

Fixpoint hash_blocks (n : nat) (h : regs) (l : list byte) : regs :=
  match n with
  | O => h
  | S n' => hash_blocks n' (compress h (take 64 l)) (drop 64 l)
  end.

Definition digest (h : regs) : list byte :=
  bytes_of_word (ra h) ++ bytes_of_word (rb h) ++ bytes_of_word (rc h)
  ++ bytes_of_word (rd h) ++ bytes_of_word (re h) ++ bytes_of_word (rf h)
  ++ bytes_of_word (rg h) ++ bytes_of_word (rh h).

(** [sha256.Sum256] *)
Definition Sum256 (msg : list byte) : list byte :=
  let p := pad msg in
  digest (hash_blocks (Nat.div (length p) 64) H0 p).

End Sha256.

(** ** Token manager ([dht/token_manager.go]) *)

Module TokenManager.
Import Bytes.

(** [net.UDPAddr]: [IP] is a byte slice, [Port] an [int]. *)
Record UDPAddr : Type := { IP : list byte; Port : Z }.

(** [Tokens] contains secret and prevSecret. *)
Record Tokens : Type := { Secret : list byte; PrevSecret : list byte }.

(** The fields of [tokenManager] that carry data.  [tokenUpdateCh] is
    [None] for a nil channel, and otherwise the values sent on it so far,
    oldest first. *)
Record tokenManager : Type := {
  secret : list byte;
  prevSecret : list byte;
  tokenUpdateCh : option (list Tokens)
}.

(** [strconv.Itoa] *)
Definition Itoa (n : Z) : list byte :=
  list_byte_of_string (NilZero.string_of_int (Z.to_int n)).

(** Go's built-in [copy(dst, src)]: the first [min (len dst) (len src)]
    elements of [dst] are overwritten, the length of [dst] is kept. *)
Definition copy (dst src : list byte) : list byte :=
  take (length dst) src ++ drop (length src) dst.

(** [rand.Read(b)]: [entropy] is what the system source delivers to this
    call.  [b] is filled entirely, or the call fails. *)
Definition rand_Read (b entropy : list byte) : option (list byte) :=
  if (length entropy <? length b)%nat then None else Some (take (length b) entropy).

Definition genToken (secret : list byte) (nodeID : Bitmap) (addr : UDPAddr) : list byte :=
  let buf := [] in
  let buf := buf ++ nodeID in
  let buf := buf ++ IP addr in
  let buf := buf ++ Itoa (Port addr) in
  let buf := buf ++ secret in
  Sha256.Sum256 buf.

Definition Get (tm : tokenManager) (nodeID : Bitmap) (addr : UDPAddr) : list byte :=
  genToken (secret tm) nodeID addr.

Definition Verify (tm : tokenManager) (token : list byte) (nodeID : Bitmap)
    (addr : UDPAddr) : bool :=
  bool_decide (token = genToken (secret tm) nodeID addr)
  || bool_decide (token = genToken (prevSecret tm) nodeID addr).

(** [rotateSecret]; [None] is the panic on a failed [rand.Read]. *)
Definition rotateSecret (tm : tokenManager) (entropy : list byte) : option tokenManager :=
  let prev := copy (prevSecret tm) (secret tm) in
  match rand_Read (secret tm) entropy with
  | None => None
  | Some s =>
      Some {| secret := s;
              prevSecret := prev;
              tokenUpdateCh :=
                (fun sent => sent ++ [ {| Secret := s; PrevSecret := prev |} ])
                  <$> tokenUpdateCh tm |}
  end.

(** [Start], up to the point where it returns; the ticker goroutine it
    launches is [ticks] below. *)
Definition Start (tm : tokenManager) (entropy : list byte) : option tokenManager :=
  if bool_decide (length (secret tm) ≠ 64%nat) then
    rotateSecret {| secret := zeros 64;
                    prevSecret := zeros 64;
                    tokenUpdateCh := tokenUpdateCh tm |} entropy
  else Some tm.

(** The goroutine of [Start]: one [rotateSecret] per tick, each with the
    entropy it reads. *)
Fixpoint ticks (tm : tokenManager) (entropies : list (list byte)) : option tokenManager :=
  match entropies with
  | [] => Some tm
  | e :: es =>
      match rotateSecret tm e with
      | Some tm' => ticks tm' es
      | None => None
      end
  end.

(** The two secrets have the same length: so it is once [Start] has
    seeded them, and rotation keeps it so. *)
Definition same_length (tm : tokenManager) : Prop :=
  length (prevSecret tm) = length (secret tm).

(** The zero value [tokenManager{}]. *)
Definition zero_tokenManager : tokenManager :=
  {| secret := []; prevSecret := []; tokenUpdateCh := None |}.

End TokenManager.

(** ** Contact store ([dht/store.go]) *)

Module Store.
Import Bytes.

(** Modelled from the spec: the [Contact] struct, whose declaration is in
    another file of package [dht]; the spec gives it as
    [{ id: Bitmap, ip: 4-byte IPv4, port: u16 }]. *)
Record Contact : Type := { ID : Bitmap; IP : list byte; Port : Z }.

(** [time.Time] is a number of nanoseconds on the process clock and
    [time.Duration] a difference of two; [zeroTime] is [time.Time{}],
    what a missing map entry reads as. *)
Definition zeroTime : Z := 0.
Definition Since (now t : Z) : Z := now - t.

Record contactStore : Type := {
  (* map of blob hashes to (map of node IDs to timestamps) *)
  hashes : gmap Bitmap (gmap Bitmap Z);
  (* stores the peers themselves, so they can be updated in one place *)
  contacts : gmap Bitmap Contact
}.

(** A call returns normally or panics. *)
Inductive result (A : Type) : Type :=
  | Ok (a : A)
  | Panic (msg : string).
Arguments Ok {A} a.
Arguments Panic {A} msg.

Definition newStore : contactStore := {| hashes := ∅; contacts := ∅ |}.

(** [Upsert]; [now] is what [time.Now()] returns in it. *)
Definition Upsert (s : contactStore) (blobHash : Bitmap) (contact : Contact)
    (now : Z) : contactStore :=
  let hashes1 :=
    match hashes s !! blobHash with
    | Some _ => hashes s
    | None => <[blobHash := ∅]> (hashes s)
    end in
  {| hashes := alter (insert (ID contact) now) blobHash hashes1;
     contacts := <[ID contact := contact]> (contacts s) |}.

Definition CountStoredHashes (s : contactStore) : nat := size (hashes s).

Section Expiry.

(** [tExpire] is a package constant; config.go only has it commented
    out, so its value is left open here. *)
Variable tExpire : Z.

(** The body of the loop of [Get] for one [id]. *)
Definition Get_visit (s : contactStore) (blobHash : Bitmap) (now : Z)
    (acc : result (list Contact)) (id : Bitmap) : result (list Contact) :=
  match acc with
  | Panic msg => Panic msg
  | Ok cs =>
      let ts := default zeroTime (hashes s !! blobHash ≫= (.!! id)) in
      if (Since now ts <? tExpire)%Z then
        match contacts s !! id with
        | Some contact => Ok (cs ++ [contact])
        | None => Panic "node id in IDs list, but not in nodeInfo"
        end
      else Ok cs
  end.

(** [Get].  Go ranges over a map in an unspecified order; [map_to_list]
    fixes one, and nothing below depends on which. *)
Definition Get (s : contactStore) (blobHash : Bitmap) (now : Z)
    : result (list Contact) :=
  match hashes s !! blobHash with
  | Some ids => fold_left (Get_visit s blobHash now) (map_to_list ids).*1 (Ok [])
  | None => Ok []
  end.

(** The inner loop of [RemoveExpiredContacts]: ranging over [nodes] and
    deleting from it. *)
Definition expire_nodes (now : Z) (nodes : gmap Bitmap Z) : gmap Bitmap Z :=
  map_fold (fun id ts nodes' =>
              if (Since now ts >? tExpire)%Z then delete id nodes' else nodes')
           nodes nodes.

Definition RemoveExpiredContacts (s : contactStore) (now : Z) : contactStore :=
  {| hashes := expire_nodes now <$> hashes s;
     contacts := contacts s |}.

(** *** Calls and histories *)

Inductive call : Type :=
  | CallUpsert (blobHash : Bitmap) (contact : Contact) (now : Z)
  | CallGet (blobHash : Bitmap) (now : Z)
  | CallRemoveExpiredContacts (now : Z)
  | CallCountStoredHashes.

(** The store after a call. *)
Definition exec (s : contactStore) (c : call) : contactStore :=
  match c with
  | CallUpsert blobHash contact now => Upsert s blobHash contact now
  | CallGet _ _ => s
  | CallRemoveExpiredContacts now => RemoveExpiredContacts s now
  | CallCountStoredHashes => s
  end.

Definition run (calls : list call) : contactStore := fold_left exec calls newStore.

End Expiry.

(** *** Locking *)

(** The two ways of taking a [sync.RWMutex]. *)
Inductive lockMode : Type := RLock | Lock.

(** What each method takes on [s.lock] for the length of its body. *)
Definition acquires (c : call) : lockMode :=
  match c with
  | CallUpsert _ _ _ => Lock
  | CallGet _ _ => RLock
  | CallRemoveExpiredContacts _ => RLock
  | CallCountStoredHashes => RLock
  end.

(** A [sync.RWMutex]: the number of readers inside, and whether a writer is. *)
Record RWMutex : Type := { readers : nat; writer : bool }.

Definition unlocked : RWMutex := {| readers := 0; writer := false |}.

(** Taking the lock; [None] when the caller has to wait. *)
Definition acquire (m : lockMode) (l : RWMutex) : option RWMutex :=
  match m with
  | RLock =>
      if writer l then None
      else Some {| readers := S (readers l); writer := false |}
  | Lock =>
      if writer l || negb (readers l =? 0)%nat then None
      else Some {| readers := 0; writer := true |}
  end.

(** [c] can enter its body while [c0] is inside its own. *)
Definition may_overlap (c0 c : call) : bool :=
  match acquire (acquires c0) unlocked with
  | Some l => bool_decide (is_Some (acquire (acquires c) l))
  | None => false
  end.

(** *** Invariants *)

(** The timestamp stored for a (hash, contact id) pair. *)
Definition timestamp (s : contactStore) (blobHash id : Bitmap) : option Z :=
  hashes s !! blobHash ≫= (.!! id).

(** Every id of the first map has an entry in the second. *)
Definition ids_known (s : contactStore) : Prop :=
  ∀ blobHash id, is_Some (timestamp s blobHash id) → is_Some (contacts s !! id).

(** Every contact is stored under its own id. *)
Definition contacts_keyed (s : contactStore) : Prop :=
  ∀ id c, contacts s !! id = Some c → ID c = id.

(** *** Sample data *)

(** 24 hours in nanoseconds, the default the spec gives for [tExpire]. *)
Definition day : Z := 24 * 3600 * 10 ^ 9.

Definition hash_a : Bitmap := replicate 48 xaa.
Definition hash_b : Bitmap := replicate 48 xbb.
Definition peer_id : Bitmap := replicate 48 x01.

Definition peer : Contact :=
  {| ID := peer_id; IP := [x0a; x00; x00; x01]; Port := 4444 |}.

(** The same peer seen at another port. *)
Definition peer_moved : Contact :=
  {| ID := peer_id; IP := [x0a; x00; x00; x01]; Port := 5555 |}.

(** A store whose only entry was recorded at time 0. *)
Definition one_entry : contactStore := Upsert newStore hash_a peer 0.

(** What one pass of the loop of [Get] adds for [id] when nothing panics. *)
Definition live_contact (tExpire : Z) (s : contactStore) (blobHash : Bitmap)
    (now : Z) (id : Bitmap) : option Contact :=
  if (Since now (default zeroTime (timestamp s blobHash id)) <? tExpire)%Z
  then contacts s !! id else None.

End Store.

(** * Properties *)

(** ** SHA-256 *)

Module Sha256Facts.
Import Bytes Sha256.

(** The test vectors of FIPS 180-4 / RFC 6234: the empty message, one
    block, and a message whose padding takes a second block. *)
Example Sum256_empty :
  Sum256 [] =
  [ xe3; xb0; xc4; x42; x98; xfc; x1c; x14; x9a; xfb; xf4; xc8; x99; x6f; xb9; x24; x27; xae; x41; xe4; x64; x9b; x93; x4c; xa4; x95; x99; x1b; x78; x52; xb8; x55 ].
Proof. vm_compute. reflexivity. Qed.

Example Sum256_abc :
  Sum256 (list_byte_of_string "abc") =
  [ xba; x78; x16; xbf; x8f; x01; xcf; xea; x41; x41; x40; xde; x5d; xae; x22; x23; xb0; x03; x61; xa3; x96; x17; x7a; x9c; xb4; x10; xff; x61; xf2; x00; x15; xad ].
Proof. vm_compute. reflexivity. Qed.

Example Sum256_two_blocks :
  Sum256 (list_byte_of_string
            "abcdbcdecdefdefgefghfghighijhijkijkljklmklmnlmnomnopnopq") =
  [ x24; x8d; x6a; x61; xd2; x06; x38; xb8; xe5; xc0; x26; x93; x0c; x3e; x60; x39; xa3; x3c; xe4; x59; x64; xff; x21; x67; xf6; xec; xed; xd4; x19; xdb; x06; xc1 ].
Proof. vm_compute. reflexivity. Qed.

Example K_first_last :
  length K = 64%nat ∧ nth 0 K 0%Z = 0x428a2f98%Z ∧ nth 63 K 0%Z = 0xc67178f2%Z.
Proof. vm_compute. auto. Qed.

Example H0_first_last : ra H0 = 0x6a09e667%Z ∧ rh H0 = 0x5be0cd19%Z.
Proof. vm_compute. auto. Qed.

Lemma length_digest h : length (digest h) = 32%nat.
Proof. reflexivity. Qed.

Lemma length_Sum256 msg : length (Sum256 msg) = 32%nat.
Proof. unfold Sum256. apply length_digest. Qed.

End Sha256Facts.

(** ** Counting byte strings *)

Module BytesFacts.
Import Bytes.
Local Open Scope N_scope.

Lemma byte_of_to_N b : byte_of_N (Byte.to_N b) = b.
Proof.
  unfold byte_of_N.
  rewrite N.mod_small by (pose proof (Byte.to_N_bounded b); lia).
  by rewrite Byte.of_to_N.
Qed.

Lemma to_N_byte_of_N n : Byte.to_N (byte_of_N n) = n mod 256.
Proof.
  unfold byte_of_N. destruct (Byte.of_N (n mod 256)) as [b|] eqn:E.
  - by apply Byte.to_of_N.
  - apply Byte.of_N_None_iff in E.
    pose proof (N.mod_upper_bound n 256). lia.
Qed.

Lemma length_le_encode k n : length (le_encode k n) = k.
Proof. revert n. induction k as [|k IH]; intros n; simpl; [done|]. by rewrite IH. Qed.

Lemma le_decode_cons b l : le_decode (b :: l) = Byte.to_N b + 256 * le_decode l.
Proof. reflexivity. Qed.

Lemma le_decode_bound l : le_decode l < 256 ^ N.of_nat (length l).
Proof.
  induction l as [|b l IH].
  - simpl. lia.
  - rewrite le_decode_cons. cbn [length].
    rewrite Nat2N.inj_succ, N.pow_succ_r'.
    pose proof (Byte.to_N_bounded b). lia.
Qed.

Lemma le_encode_decode l : le_encode (length l) (le_decode l) = l.
Proof.
  induction l as [|b l IH]; [done|].
  rewrite le_decode_cons. cbn [length le_encode].
  pose proof (Byte.to_N_bounded b) as Hb.
  assert ((Byte.to_N b + 256 * le_decode l) mod 256 = Byte.to_N b) as Hmod
    by (symmetry; apply N.mod_unique with (q := le_decode l); lia).
  assert ((Byte.to_N b + 256 * le_decode l) / 256 = le_decode l) as Hdiv
    by (symmetry; apply N.div_unique with (r := Byte.to_N b); lia).
  rewrite Hdiv, IH. f_equal.
  unfold byte_of_N. by rewrite Hmod, Byte.of_to_N.
Qed.

Lemma le_decode_encode k n : n < 256 ^ N.of_nat k → le_decode (le_encode k n) = n.
Proof.
  revert n. induction k as [|k IH]; intros n Hn.
  - simpl in *. lia.
  - cbn [le_encode]. rewrite le_decode_cons, to_N_byte_of_N.
    rewrite Nat2N.inj_succ, N.pow_succ_r' in Hn.
    rewrite IH by (apply N.Div0.div_lt_upper_bound; lia).
    symmetry. rewrite N.add_comm. apply N.div_mod. lia.
Qed.

(** Byte strings of one length are determined by their number. *)
Lemma le_decode_inj l1 l2 :
  length l1 = length l2 → le_decode l1 = le_decode l2 → l1 = l2.
Proof.
  intros Hlen Hdec.
  rewrite <- (le_encode_decode l1), <- (le_encode_decode l2).
  by rewrite Hlen, Hdec.
Qed.

(** No function from the strings of [k] bytes to the strings of [k']
    bytes, [k' < k], is injective. *)
Lemma no_injection_to_shorter (k k' : nat) (f : list byte → list byte) :
  (k' < k)%nat →
  (∀ x, length x = k → length (f x) = k') →
  ¬ (∀ x y, length x = k → length y = k → f x = f y → x = y).
Proof.
  intros Hk Hlen Hinj.
  assert (256 ^ N.of_nat k' < 256 ^ N.of_nat k) as Hpow
    by (apply N.pow_lt_mono_r; lia).
  remember (256 ^ N.of_nat k') as m eqn:Hm.
  remember (256 ^ N.of_nat k) as M eqn:HM.
  pose (g := fun i : nat => N.to_nat (le_decode (f (le_encode k (N.of_nat i))))).
  destruct (nat_pigeonhole g (S (N.to_nat m)) (N.to_nat m)) as (i & j & Hij & Hg).
  - apply Nat.lt_succ_diag_r.
  - intros i Hi. unfold g.
    pose proof (le_decode_bound (f (le_encode k (N.of_nat i)))) as Hb.
    rewrite Hlen in Hb by apply length_le_encode.
    rewrite <- Hm in Hb. lia.
  - unfold g in Hg. apply N2Nat.inj in Hg.
    apply le_decode_inj in Hg;
      [|by rewrite !Hlen by apply length_le_encode].
    apply Hinj in Hg; [|apply length_le_encode..].
    apply (f_equal le_decode) in Hg.
    rewrite !le_decode_encode in Hg by (rewrite <- HM; lia).
    lia.
Qed.

End BytesFacts.

(** ** Token manager *)

Module TokenManagerFacts.
Import Bytes Sha256 TokenManager BytesFacts Sha256Facts.

(** *** Helper lemmas *)

Lemma genToken_unfold s id addr :
  genToken s id addr = Sum256 (id ++ IP addr ++ Itoa (Port addr) ++ s).
Proof. unfold genToken. by rewrite app_nil_l, <- !app_assoc. Qed.

Lemma length_genToken s id addr : length (genToken s id addr) = 32%nat.
Proof. apply length_Sum256. Qed.

(** [Itoa] writes the decimal numeral of its argument: reading it back
    gives the number. *)
Lemma Itoa_reads_back (n : Z) :
  Z.of_int <$> NilZero.int_of_string (string_of_list_byte (Itoa n)) = Some n.
Proof.
  unfold Itoa. rewrite string_of_list_byte_of_string.
  rewrite NilZero.isi.
  - simpl. f_equal. apply DecimalZ.of_to.
  - destruct n; simpl; try discriminate.
    intros [= H]. by apply Unsigned.to_uint_nonnil in H.
  - destruct n; simpl; try discriminate.
    intros [= H]. by apply Unsigned.to_uint_nonnil in H.
Qed.

Lemma copy_same_length dst src : length dst = length src → copy dst src = src.
Proof.
  intros H. unfold copy.
  rewrite H, firstn_all, <- H, drop_all. apply app_nil_r.
Qed.

Lemma length_copy dst src : length (copy dst src) = length dst.
Proof. unfold copy. rewrite length_app, length_take, length_drop. lia. Qed.

Lemma rand_Read_Some b entropy s :
  rand_Read b entropy = Some s →
  s = take (length b) entropy ∧ length s = length b.
Proof.
  unfold rand_Read. destruct (Nat.ltb_spec (length entropy) (length b)); [done|].
  intros [= <-]. split; [done|]. rewrite length_take. lia.
Qed.

Lemma rand_Read_enough b entropy :
  length b ≤ length entropy → rand_Read b entropy = Some (take (length b) entropy).
Proof.
  intros H. unfold rand_Read.
  destruct (Nat.ltb_spec (length entropy) (length b)); [lia|done].
Qed.

Lemma rotateSecret_Some tm entropy tm' :
  rotateSecret tm entropy = Some tm' →
  secret tm' = take (length (secret tm)) entropy
  ∧ length (secret tm') = length (secret tm)
  ∧ prevSecret tm' = copy (prevSecret tm) (secret tm).
Proof.
  unfold rotateSecret.
  destruct (rand_Read (secret tm) entropy) as [s|] eqn:E; [|done].
  apply rand_Read_Some in E as [-> Hlen]. intros [= <-]. simpl. auto.
Qed.

(** Rotation needs as many bytes as the secret has, and only fails for
    want of them. *)
Lemma rotateSecret_enough tm entropy :
  length (secret tm) ≤ length entropy → is_Some (rotateSecret tm entropy).
Proof.
  intros H. unfold rotateSecret. rewrite rand_Read_enough by done. eauto.
Qed.

Lemma rotateSecret_same_length tm entropy tm' :
  rotateSecret tm entropy = Some tm' → same_length tm → same_length tm'.
Proof.
  intros (_ & Hs & Hp)%rotateSecret_Some Hlen. unfold same_length in *.
  by rewrite Hp, length_copy, Hs.
Qed.

Lemma Start_same_length tm entropy tm' :
  length (secret tm) ≠ 64%nat → Start tm entropy = Some tm' → same_length tm'.
Proof.
  intros Hne. unfold Start. rewrite bool_decide_eq_true_2 by done.
  intros H. by apply rotateSecret_same_length in H.
Qed.

Lemma ticks_same_length entropies : ∀ tm tm',
  ticks tm entropies = Some tm' → same_length tm → same_length tm'.
Proof.
  induction entropies as [|e es IH]; intros tm tm'; simpl.
  - by intros [= <-].
  - destruct (rotateSecret tm e) as [tm1|] eqn:E; [|done].
    intros Ht Hlen. eapply IH; [done|]. by eapply rotateSecret_same_length.
Qed.

Lemma Verify_true tm token id addr :
  Verify tm token id addr = true ↔
  token = genToken (secret tm) id addr ∨ token = genToken (prevSecret tm) id addr.
Proof. unfold Verify. by rewrite orb_true_iff, !bool_decide_eq_true. Qed.

Lemma Verify_false tm token id addr :
  Verify tm token id addr = false ↔
  token ≠ genToken (secret tm) id addr ∧ token ≠ genToken (prevSecret tm) id addr.
Proof. unfold Verify. by rewrite orb_false_iff, !bool_decide_eq_false. Qed.

(** A token is accepted now and after one rotation. *)
Lemma token_survives_one_rotation tm id addr e1 tm1 :
  same_length tm → rotateSecret tm e1 = Some tm1 →
  Verify tm (Get tm id addr) id addr = true
  ∧ Verify tm1 (Get tm id addr) id addr = true.
Proof.
  intros Hlen (_ & _ & Hp)%rotateSecret_Some. split.
  - apply Verify_true. by left.
  - apply Verify_true. right. by rewrite Hp, copy_same_length.
Qed.

(** *** Deriving and checking tokens *)

(** C7: for every token, node id and address, [Verify] returns true if
    and only if the token equals the derivation of that (id, address)
    pair under the current secret or under the previous secret. *)
Theorem Verify_iff_current_or_previous tm token id addr :
  Verify tm token id addr = true ↔
  token = genToken (secret tm) id addr ∨ token = genToken (prevSecret tm) id addr.
Proof. apply Verify_true. Qed.

(** C8: for every node id and UDP address, [Get] returns
    SHA-256(id ∥ ip ∥ decimal(port) ∥ current secret), which has 32 bytes;
    the port is written as the decimal numeral that reads back as it. *)
Theorem Get_is_sha256_of_current_secret tm id addr :
  Get tm id addr = Sum256 (id ++ IP addr ++ Itoa (Port addr) ++ secret tm)
  ∧ length (Get tm id addr) = 32%nat
  ∧ Z.of_int <$> NilZero.int_of_string (string_of_list_byte (Itoa (Port addr)))
    = Some (Port addr).
Proof.
  split; [apply genToken_unfold|]. split; [apply length_genToken|].
  apply Itoa_reads_back.
Qed.

(** *** Rotation *)

(** C1 as stated does not hold: that the two fresh secrets differ from
    the secret of the token does not make the token invalid after two
    rotations.  Secrets have 64 bytes and tokens 32, so two different
    secrets give one token, and a token of the first is accepted under
    the second. *)
Lemma distinct_secrets_do_not_end_token :
  ¬ (∀ tm id addr e1 e2 tm1 tm2,
       same_length tm →
       rotateSecret tm e1 = Some tm1 →
       rotateSecret tm1 e2 = Some tm2 →
       secret tm1 ≠ secret tm →
       secret tm2 ≠ secret tm →
       Verify tm (Get tm id addr) id addr = true
       ∧ Verify tm1 (Get tm id addr) id addr = true
       ∧ Verify tm2 (Get tm id addr) id addr = false).
Proof.
  intros Hclaim.
  pose (id := replicate 48 x00).
  pose (addr := {| IP := [x7f; x00; x00; x01]; Port := 4444 |}).
  apply (no_injection_to_shorter 64 32 (fun s => genToken s id addr)); [lia|..].
  - intros x _. apply length_genToken.
  - intros x y Hx Hy Heq. destruct (decide (x = y)) as [|Hne]; [done|exfalso].
    pose (tm := {| secret := x; prevSecret := x; tokenUpdateCh := None |}).
    pose (tm1 := {| secret := y; prevSecret := x; tokenUpdateCh := None |}).
    pose (tm2 := {| secret := y; prevSecret := y; tokenUpdateCh := None |}).
    assert (take 64 y = y) as Hy' by (apply take_ge; lia).
    destruct (Hclaim tm id addr y y tm1 tm2) as (_ & _ & Hv).
    + reflexivity.
    + unfold rotateSecret, tm, tm1; simpl.
      rewrite rand_Read_enough by lia. rewrite copy_same_length by done.
      by rewrite Hx, Hy'.
    + unfold rotateSecret, tm1, tm2; simpl.
      rewrite rand_Read_enough by lia. rewrite copy_same_length by lia.
      by rewrite Hy, Hy'.
    + simpl. congruence.
    + simpl. congruence.
    + apply Verify_false in Hv as [Hv _]. unfold Get in Hv. simpl in Hv. done.
Qed.

(** C1, amended: a token obtained from the token manager verifies
    immediately and after one rotation of the secret, and no longer
    after two, provided the tokens of the two fresh secrets for this id
    and address differ from it. *)
Theorem token_lifetime tm id addr e1 e2 tm1 tm2 :
  same_length tm →
  rotateSecret tm e1 = Some tm1 →
  rotateSecret tm1 e2 = Some tm2 →
  genToken (secret tm1) id addr ≠ Get tm id addr →
  genToken (secret tm2) id addr ≠ Get tm id addr →
  Verify tm (Get tm id addr) id addr = true
  ∧ Verify tm1 (Get tm id addr) id addr = true
  ∧ Verify tm2 (Get tm id addr) id addr = false.
Proof.
  intros Hlen H1 H2 Hne1 Hne2.
  destruct (token_survives_one_rotation tm id addr e1 tm1 Hlen H1) as [Hv0 Hv1].
  split; [done|]. split; [done|].
  apply Verify_false.
  pose proof (rotateSecret_same_length _ _ _ H1 Hlen) as Hlen1.
  apply rotateSecret_Some in H2 as (_ & _ & Hp).
  rewrite Hp, copy_same_length by done. split; congruence.
Qed.

Lemma token_lifetime_witness :
  let tm := {| secret := replicate 64 x01; prevSecret := zeros 64;
               tokenUpdateCh := None |} in
  let tm1 := {| secret := replicate 64 x02; prevSecret := replicate 64 x01;
                tokenUpdateCh := None |} in
  let tm2 := {| secret := replicate 64 x03; prevSecret := replicate 64 x02;
                tokenUpdateCh := None |} in
  let id := replicate 48 xaa in
  let addr := {| IP := [x7f; x00; x00; x01]; Port := 4444 |} in
  Verify tm (Get tm id addr) id addr = true
  ∧ Verify tm1 (Get tm id addr) id addr = true
  ∧ Verify tm2 (Get tm id addr) id addr = false.
Proof.
  intros tm tm1 tm2 id addr.
  apply (token_lifetime tm id addr (replicate 64 x02) (replicate 64 x03) tm1 tm2).
  - reflexivity.
  - reflexivity.
  - reflexivity.
  - vm_compute. discriminate.
  - vm_compute. discriminate.
Defined.

(** The lengths matter: a manager handed a 64-byte secret and no previous
    secret is left as it is by [Start], [copy] into the empty slice copies
    nothing, and a token does not outlive the rotation. *)
Example preset_secret_without_previous :
  let tm := {| secret := replicate 64 x01; prevSecret := [];
               tokenUpdateCh := None |} in
  let id := replicate 48 xaa in
  let addr := {| IP := [x7f; x00; x00; x01]; Port := 4444 |} in
  Start tm (replicate 64 x02) = Some tm
  ∧ ∃ tm1, rotateSecret tm (replicate 64 x02) = Some tm1
           ∧ prevSecret tm1 = []
           ∧ Verify tm1 (Get tm id addr) id addr = false.
Proof.
  split; [reflexivity|]. eexists. split; [reflexivity|].
  split; [reflexivity|]. vm_compute. reflexivity.
Qed.

(** *** Start *)

(** C2 as stated does not hold: on the zero-value manager, with entropy
    that has no zero byte, [Start] leaves the previous secret all zero. *)
Lemma Start_leaves_prevSecret_zero :
  Start zero_tokenManager (replicate 64 xa5)
  = Some {| secret := replicate 64 xa5;
            prevSecret := replicate 64 x00;
            tokenUpdateCh := None |}.
Proof. reflexivity. Qed.

(** C2, amended: when [Start] is called on a token manager whose secret
    is not yet initialized, then before any rotation tick the current
    secret is 64 freshly read random bytes and the previous secret is 64
    zero bytes; the first tick moves those random bytes to the previous
    secret and reads a new current one. *)
Theorem Start_seeds_current_secret tm0 entropy :
  length (secret tm0) ≠ 64%nat →
  64 ≤ length entropy →
  ∃ tm, Start tm0 entropy = Some tm
        ∧ secret tm = take 64 entropy
        ∧ prevSecret tm = zeros 64
        ∧ ∀ e1, 64 ≤ length e1 →
            ∃ tm1, ticks tm [e1] = Some tm1
                   ∧ secret tm1 = take 64 e1
                   ∧ prevSecret tm1 = take 64 entropy.
Proof.
  intros Hne He. unfold Start. rewrite bool_decide_eq_true_2 by done.
  assert (copy (zeros 64) (zeros 64) = zeros 64) as Hcopy by reflexivity.
  unfold rotateSecret at 1. cbn [secret prevSecret tokenUpdateCh].
  rewrite rand_Read_enough by (cbn; lia).
  change (length (zeros 64)) with 64%nat. rewrite Hcopy.
  eexists. split; [reflexivity|]. cbn [secret prevSecret].
  split; [done|]. split; [done|].
  intros e1 He1. unfold ticks, rotateSecret. cbn [secret prevSecret tokenUpdateCh].
  assert (length (take 64 entropy) = 64%nat) as Hlen
    by (rewrite length_take; lia).
  rewrite rand_Read_enough by lia. rewrite Hlen.
  eexists. split; [reflexivity|]. cbn [secret prevSecret].
  split; [done|]. by apply copy_same_length.
Qed.

Lemma Start_seeds_current_secret_witness :
  ∃ tm, Start zero_tokenManager (replicate 64 xa5) = Some tm
        ∧ secret tm = take 64 (replicate 64 xa5)
        ∧ prevSecret tm = zeros 64
        ∧ ∀ e1, 64 ≤ length e1 →
            ∃ tm1, ticks tm [e1] = Some tm1
                   ∧ secret tm1 = take 64 e1
                   ∧ prevSecret tm1 = take 64 (replicate 64 xa5).
Proof.
  apply (Start_seeds_current_secret zero_tokenManager (replicate 64 xa5)).
  - simpl. lia.
  - simpl. lia.
Defined.

End TokenManagerFacts.

(** ** Contact store *)

Module StoreFacts.
Import Bytes Store.

Section WithExpiry.

Variable tExpire : Z.

(** *** The maps after each operation *)

Lemma timestamp_Some s h id ts :
  timestamp s h id = Some ts ↔ ∃ ids, hashes s !! h = Some ids ∧ ids !! id = Some ts.
Proof.
  unfold timestamp. destruct (hashes s !! h) as [ids|]; simpl.
  - split; [eauto|]. by intros (? & [= <-] & ?).
  - split; [done|]. by intros (? & ? & ?).
Qed.

Lemma timestamp_newStore h id : timestamp newStore h id = None.
Proof. reflexivity. Qed.

Lemma timestamp_Upsert s h c now h' id' :
  timestamp (Upsert s h c now) h' id' =
  if decide (h' = h ∧ id' = ID c) then Some now else timestamp s h' id'.
Proof.
  unfold timestamp, Upsert. cbn [hashes].
  destruct (decide (h' = h)) as [->|Hh].
  - rewrite lookup_alter_eq.
    destruct (hashes s !! h) as [ids|] eqn:E.
    + rewrite E. simpl. destruct (decide (id' = ID c)) as [->|Hid].
      * rewrite lookup_insert_eq. by rewrite decide_True.
      * rewrite lookup_insert_ne by done. rewrite decide_False by tauto. done.
    + rewrite lookup_insert_eq. simpl. destruct (decide (id' = ID c)) as [->|Hid].
      * rewrite lookup_insert_eq. by rewrite decide_True.
      * rewrite lookup_insert_ne by done. rewrite decide_False by tauto. done.
  - rewrite lookup_alter_ne by done. rewrite decide_False by tauto.
    destruct (hashes s !! h); [done|]. by rewrite lookup_insert_ne.
Qed.

Lemma contacts_Upsert s h c now :
  contacts (Upsert s h c now) = <[ID c := c]> (contacts s).
Proof. reflexivity. Qed.

(** The loop that deletes while ranging leaves what a filter leaves. *)
Lemma lookup_expire_nodes (now : Z) (nodes : gmap Bitmap Z) (id : Bitmap) :
  expire_nodes tExpire now nodes !! id =
  match nodes !! id with
  | Some ts => if (Since now ts >? tExpire)%Z then None else Some ts
  | None => None
  end.
Proof.
  unfold expire_nodes.
  set (f := fun (id : Bitmap) (ts : Z) (nodes' : gmap Bitmap Z) =>
              if (Since now ts >? tExpire)%Z then delete id nodes' else nodes').
  assert (∀ acc m k,
    map_fold f acc m !! k =
    match m !! k with
    | Some ts => if (Since now ts >? tExpire)%Z then None else acc !! k
    | None => acc !! k
    end) as Hfold.
  { intros acc m.
    apply (map_fold_weak_ind (fun (r : gmap Bitmap Z) (m : gmap Bitmap Z) =>
      ∀ k, r !! k =
           match m !! k with
           | Some ts => if (Since now ts >? tExpire)%Z then None else acc !! k
           | None => acc !! k
           end)).
    - intros k. by rewrite lookup_empty.
    - clear m. intros i x m r Hi IH k. unfold f at 1.
      destruct (decide (k = i)) as [->|Hk].
      + rewrite lookup_insert_eq. specialize (IH i). rewrite Hi in IH.
        destruct (Since now x >? tExpire)%Z; [by rewrite lookup_delete_eq|done].
      + rewrite lookup_insert_ne by done.
        destruct (Since now x >? tExpire)%Z; [|done].
        by rewrite lookup_delete_ne. }
  rewrite Hfold. by destruct (nodes !! id).
Qed.

Lemma timestamp_RemoveExpiredContacts s now h id :
  timestamp (RemoveExpiredContacts tExpire s now) h id =
  match timestamp s h id with
  | Some ts => if (Since now ts >? tExpire)%Z then None else Some ts
  | None => None
  end.
Proof.
  unfold timestamp, RemoveExpiredContacts. cbn [hashes].
  rewrite lookup_fmap. destruct (hashes s !! h) as [ids|]; [|done].
  simpl. apply lookup_expire_nodes.
Qed.

(** *** Invariants *)

Lemma ids_known_newStore : ids_known newStore.
Proof. intros h id [ts Hts]. by rewrite timestamp_newStore in Hts. Qed.

Lemma ids_known_Upsert s h c now : ids_known s → ids_known (Upsert s h c now).
Proof.
  intros Hs h' id'. rewrite timestamp_Upsert, contacts_Upsert.
  destruct (decide (id' = ID c)) as [->|Hid].
  - intros _. rewrite lookup_insert_eq. eauto.
  - rewrite decide_False by tauto. rewrite lookup_insert_ne by done. apply Hs.
Qed.

Lemma ids_known_RemoveExpiredContacts s now :
  ids_known s → ids_known (RemoveExpiredContacts tExpire s now).
Proof.
  intros Hs h id. rewrite timestamp_RemoveExpiredContacts. cbn [contacts].
  intros [ts Hts]. apply (Hs h).
  destruct (timestamp s h id); [eauto|done].
Qed.

Lemma ids_known_exec s c : ids_known s → ids_known (exec tExpire s c).
Proof.
  destruct c; simpl;
    auto using ids_known_Upsert, ids_known_RemoveExpiredContacts.
Qed.

Lemma contacts_keyed_newStore : contacts_keyed newStore.
Proof. intros id c. cbn [newStore contacts]. by rewrite lookup_empty. Qed.

Lemma contacts_keyed_Upsert s h c now :
  contacts_keyed s → contacts_keyed (Upsert s h c now).
Proof.
  intros Hs id c'. rewrite contacts_Upsert.
  destruct (decide (id = ID c)) as [->|Hid].
  - rewrite lookup_insert_eq. by intros [= <-].
  - rewrite lookup_insert_ne by done. apply Hs.
Qed.

Lemma contacts_keyed_exec s c : contacts_keyed s → contacts_keyed (exec tExpire s c).
Proof. destruct c; simpl; auto using contacts_keyed_Upsert. Qed.

Lemma run_invariants calls :
  ids_known (run tExpire calls) ∧ contacts_keyed (run tExpire calls).
Proof.
  unfold run.
  assert (∀ s, ids_known s ∧ contacts_keyed s →
               ids_known (fold_left (exec tExpire) calls s)
               ∧ contacts_keyed (fold_left (exec tExpire) calls s)) as H.
  { induction calls as [|c calls IH]; intros s [H1 H2]; simpl; [done|].
    apply IH. auto using ids_known_exec, contacts_keyed_exec. }
  apply H. split; [apply ids_known_newStore|apply contacts_keyed_newStore].
Qed.

(** *** What [Get] returns *)

Lemma fold_Get_visit s h now (ids : list Bitmap) : ∀ acc : list Contact,
  ids_known s →
  (∀ id, id ∈ ids → is_Some (timestamp s h id)) →
  fold_left (Get_visit tExpire s h now) ids (Ok acc)
  = Ok (acc ++ omap (live_contact tExpire s h now) ids).
Proof.
  induction ids as [|id ids IH]; intros acc Hs Hids; simpl.
  - by rewrite app_nil_r.
  - unfold live_contact at 1. fold (timestamp s h id).
    destruct (Since now (default zeroTime (timestamp s h id)) <? tExpire)%Z.
    + destruct (Hs h id) as [c Hc]; [apply Hids; left|].
      rewrite Hc. rewrite IH; [|done|intros; apply Hids; by right].
      by rewrite <- app_assoc.
    + apply IH; [done|intros; apply Hids; by right].
Qed.

Lemma Get_Ok s h now :
  ids_known s →
  ∃ l, Get tExpire s h now = Ok l
       ∧ ∀ c, c ∈ l ↔ ∃ id ts, timestamp s h id = Some ts
                               ∧ (Since now ts < tExpire)%Z
                               ∧ contacts s !! id = Some c.
Proof.
  intros Hs. unfold Get. destruct (hashes s !! h) as [ids|] eqn:E.
  - assert (∀ id, id ∈ (map_to_list ids).*1 ↔ is_Some (timestamp s h id)) as Hkeys.
    { intros id. unfold timestamp. rewrite E. simpl.
      rewrite list_elem_of_fmap. split.
      - intros ([id' ts] & -> & Hin%elem_of_map_to_list). eauto.
      - intros [ts Hts]. exists (id, ts). by rewrite elem_of_map_to_list. }
    rewrite fold_Get_visit; [|done|by intros id ?%Hkeys].
    eexists. split; [reflexivity|]. intros c. simpl.
    rewrite list_elem_of_omap. split.
    + intros (id & [ts Hts]%Hkeys & Hlive). exists id, ts.
      unfold live_contact in Hlive. rewrite Hts in Hlive. simpl in Hlive.
      destruct (Z.ltb_spec (Since now ts) tExpire); [done|discriminate].
    + intros (id & ts & Hts & Hfresh & Hc). exists id. split.
      * apply Hkeys. eauto.
      * unfold live_contact. rewrite Hts. simpl.
        by destruct (Z.ltb_spec (Since now ts) tExpire); [|lia].
  - exists []. split; [done|]. intros c. split.
    + by intros ?%elem_of_nil.
    + intros (id & ts & Hts & _). unfold timestamp in Hts. by rewrite E in Hts.
Qed.

(** *** The claims on the maps *)

(** C3: in every store that a sequence of Upsert, Get,
    RemoveExpiredContacts and CountStoredHashes calls leads to from
    [newStore], every contact id of the hashes map has an entry in the
    contacts map, and [Get] does not panic. *)
Theorem reachable_ids_known (calls : list call) :
  ids_known (run tExpire calls)
  ∧ ∀ h now, ∃ l, Get tExpire (run tExpire calls) h now = Ok l.
Proof.
  destruct (run_invariants calls) as [Hs _]. split; [done|].
  intros h now. destruct (Get_Ok (run tExpire calls) h now Hs) as (l & Hl & _).
  eauto.
Qed.

(** C4: [Get] returns exactly the contacts whose timestamp for that hash
    is less than [tExpire] old; [Upsert] records the current time as the
    timestamp, so a contact is returned by a [Get] that follows within
    [tExpire]; and for a hash without entries [Get] returns the empty
    list. *)
Theorem Get_returns_unexpired_contacts s h now :
  ids_known s →
  (∃ l, Get tExpire s h now = Ok l
        ∧ ∀ c, c ∈ l ↔ ∃ id ts, timestamp s h id = Some ts
                                ∧ (Since now ts < tExpire)%Z
                                ∧ contacts s !! id = Some c)
  ∧ (∀ c t, timestamp (Upsert s h c t) h (ID c) = Some t
            ∧ ((Since now t < tExpire)%Z →
               ∃ l, Get tExpire (Upsert s h c t) h now = Ok l ∧ c ∈ l))
  ∧ ((∀ id, timestamp s h id = None) → Get tExpire s h now = Ok []).
Proof.
  intros Hs. split; [by apply Get_Ok|]. split.
  - intros c t.
    assert (timestamp (Upsert s h c t) h (ID c) = Some t) as Ht
      by (rewrite timestamp_Upsert; by rewrite decide_True).
    split; [done|]. intros Hfresh.
    destruct (Get_Ok (Upsert s h c t) h now) as (l & Hl & Hin);
      [by apply ids_known_Upsert|].
    exists l. split; [done|]. apply Hin. exists (ID c), t.
    split; [done|]. split; [done|].
    rewrite contacts_Upsert. apply lookup_insert_eq.
  - intros Hnone. unfold Get. destruct (hashes s !! h) as [ids|] eqn:E; [|done].
    assert (ids = ∅) as ->.
    { apply map_eq. intros id. rewrite lookup_empty.
      specialize (Hnone id). unfold timestamp in Hnone. by rewrite E in Hnone. }
    by rewrite map_to_list_empty.
Qed.

(** C5: [RemoveExpiredContacts] deletes exactly the (hash, contact id)
    entries whose age exceeds [tExpire], and leaves every other entry
    with its timestamp. *)
Theorem RemoveExpiredContacts_deletes_expired s now h id :
  timestamp (RemoveExpiredContacts tExpire s now) h id =
  match timestamp s h id with
  | Some ts => if (tExpire <? Since now ts)%Z then None else Some ts
  | None => None
  end.
Proof.
  rewrite timestamp_RemoveExpiredContacts.
  destruct (timestamp s h id) as [ts|]; [|done]. by rewrite Z.gtb_ltb.
Qed.

(** C9: [RemoveExpiredContacts] removes nothing from the contacts map
    and no blob hash from the hashes map, so [CountStoredHashes] counts
    the same hashes after it, also those left without any contact. *)
Theorem RemoveExpiredContacts_keeps_contacts_and_hashes s now :
  contacts (RemoveExpiredContacts tExpire s now) = contacts s
  ∧ dom (hashes (RemoveExpiredContacts tExpire s now)) = dom (hashes s)
  ∧ CountStoredHashes (RemoveExpiredContacts tExpire s now) = CountStoredHashes s
  ∧ ∀ h, is_Some (hashes s !! h) →
      (∀ id ts, timestamp s h id = Some ts → (Since now ts > tExpire)%Z) →
      hashes (RemoveExpiredContacts tExpire s now) !! h = Some ∅.
Proof.
  split; [done|]. split; [apply dom_fmap_L|].
  split; [apply map_size_fmap|].
  intros h [ids Hh] Hall. cbn [RemoveExpiredContacts hashes].
  rewrite lookup_fmap, Hh. simpl. f_equal.
  apply map_eq. intros id. rewrite lookup_expire_nodes, lookup_empty.
  destruct (ids !! id) as [ts|] eqn:E; [|done].
  assert (timestamp s h id = Some ts) as Hts
    by (apply timestamp_Some; eauto).
  apply Hall in Hts. by destruct (Z.gtb_spec (Since now ts) tExpire); [|lia].
Qed.

(** C10: one contact is kept per contact id, under whatever hash it was
    upserted last: after Upsert(h1, c) and then Upsert(h2, c') with the
    id of c, Get(h1) returns c', and not c when c differs from c'. *)
Theorem Get_returns_latest_contact s h1 h2 c c' t1 t2 now :
  ids_known s →
  contacts_keyed s →
  ID c' = ID c →
  (t1 ≤ t2)%Z →
  (Since now t1 < tExpire)%Z →
  ∃ l, Get tExpire (Upsert (Upsert s h1 c t1) h2 c' t2) h1 now = Ok l
       ∧ c' ∈ l
       ∧ (c ≠ c' → c ∉ l).
Proof.
  intros Hs Hk Hid Ht Hfresh.
  set (s2 := Upsert (Upsert s h1 c t1) h2 c' t2).
  assert (contacts s2 !! ID c = Some c') as Hc'
    by (unfold s2; rewrite contacts_Upsert, <- Hid; apply lookup_insert_eq).
  destruct (Get_Ok s2 h1 now) as (l & Hl & Hin);
    [by do 2 apply ids_known_Upsert|].
  exists l. split; [done|]. split.
  - apply Hin. exists (ID c).
    unfold s2. rewrite !timestamp_Upsert, Hid.
    destruct (decide (h1 = h2 ∧ ID c = ID c)) as [_|_].
    + exists t2. unfold Since in *. split; [done|]. split; [lia|done].
    + exists t1. rewrite decide_True by done. done.
  - intros Hne (id & ts & _ & _ & Hc)%Hin.
    assert (ID c = id) as <-.
    { revert Hc. by apply contacts_keyed_Upsert, contacts_keyed_Upsert. }
    congruence.
Qed.

End WithExpiry.

(** *** The operations on sample data *)

Example Get_after_Upsert : Get day one_entry hash_a 5 = Ok [peer].
Proof. vm_compute. reflexivity. Qed.

Example Get_at_expiry : Get day one_entry hash_a day = Ok [].
Proof. vm_compute. reflexivity. Qed.

Example Get_other_hash : Get day one_entry hash_b 5 = Ok [].
Proof. vm_compute. reflexivity. Qed.

(** An entry exactly [tExpire] old is no longer returned and not yet
    removed. *)
Example RemoveExpiredContacts_at_expiry :
  timestamp (RemoveExpiredContacts day one_entry day) hash_a peer_id = Some 0%Z.
Proof. vm_compute. reflexivity. Qed.

Example RemoveExpiredContacts_after_expiry :
  timestamp (RemoveExpiredContacts day one_entry (day + 1)) hash_a peer_id = None
  ∧ size <$> hashes (RemoveExpiredContacts day one_entry (day + 1)) !! hash_a
    = Some 0%nat
  ∧ CountStoredHashes (RemoveExpiredContacts day one_entry (day + 1)) = 1%nat.
Proof. vm_compute. auto. Qed.

(** A store outside the invariant makes [Get] panic. *)
Example Get_panics_off_invariant :
  Get day {| hashes := hashes one_entry; contacts := ∅ |} hash_a 5
  = Panic "node id in IDs list, but not in nodeInfo".
Proof. vm_compute. reflexivity. Qed.

Lemma Get_returns_unexpired_contacts_witness :
  (∃ l, Get day one_entry hash_a 5 = Ok l
        ∧ ∀ c, c ∈ l ↔ ∃ id ts, timestamp one_entry hash_a id = Some ts
                                ∧ (Since 5 ts < day)%Z
                                ∧ contacts one_entry !! id = Some c)
  ∧ (∃ l, Get day (Upsert one_entry hash_a peer_moved 3) hash_a 5 = Ok l
          ∧ peer_moved ∈ l)
  ∧ Get day newStore hash_a 5 = Ok [].
Proof.
  assert (ids_known one_entry) as Hs
    by apply ids_known_Upsert, ids_known_newStore.
  destruct (Get_returns_unexpired_contacts day one_entry hash_a 5 Hs)
    as (H1 & H2 & _).
  destruct (Get_returns_unexpired_contacts day newStore hash_a 5 ids_known_newStore)
    as (_ & _ & H3).
  split; [exact H1|]. split.
  - destruct (H2 peer_moved 3%Z) as [_ H]. apply H. vm_compute. reflexivity.
  - apply H3. intros id. reflexivity.
Defined.

Lemma RemoveExpiredContacts_keeps_contacts_and_hashes_witness :
  contacts (RemoveExpiredContacts day one_entry (day + 1)) = contacts one_entry
  ∧ dom (hashes (RemoveExpiredContacts day one_entry (day + 1)))
    = dom (hashes one_entry)
  ∧ CountStoredHashes (RemoveExpiredContacts day one_entry (day + 1))
    = CountStoredHashes one_entry
  ∧ hashes (RemoveExpiredContacts day one_entry (day + 1)) !! hash_a = Some ∅.
Proof.
  destruct (RemoveExpiredContacts_keeps_contacts_and_hashes day one_entry (day + 1))
    as (H1 & H2 & H3 & H4).
  split; [exact H1|]. split; [exact H2|]. split; [exact H3|].
  apply (H4 hash_a).
  - destruct (hashes one_entry !! hash_a) eqn:E; [eauto|].
    vm_compute in E. discriminate.
  - intros id ts. unfold one_entry. rewrite timestamp_Upsert.
    destruct (decide _); [|by rewrite timestamp_newStore].
    intros [= <-]. vm_compute. reflexivity.
Defined.

Lemma Get_returns_latest_contact_witness :
  ∃ l, Get day (Upsert (Upsert newStore hash_a peer 0) hash_b peer_moved 3) hash_a 5
       = Ok l
       ∧ peer_moved ∈ l
       ∧ (peer ≠ peer_moved → peer ∉ l).
Proof.
  apply (Get_returns_latest_contact day newStore hash_a hash_b peer peer_moved 0 3 5).
  - apply ids_known_newStore.
  - apply contacts_keyed_newStore.
  - reflexivity.
  - lia.
  - vm_compute. reflexivity.
Defined.

(** *** Locking *)

(** C6 fails on [RemoveExpiredContacts]: it changes the hashes map while
    it holds the lock in shared mode, so that it can run together with a
    [Get], or with another [RemoveExpiredContacts]; [Upsert], which
    takes the lock in exclusive mode, can run together with neither. *)
Theorem RemoveExpiredContacts_writes_under_read_lock :
  acquires (CallRemoveExpiredContacts (day + 1)) = RLock
  ∧ exec day one_entry (CallRemoveExpiredContacts (day + 1)) ≠ one_entry
  ∧ may_overlap (CallRemoveExpiredContacts (day + 1)) (CallGet hash_a (day + 1)) = true
  ∧ may_overlap (CallGet hash_a (day + 1)) (CallRemoveExpiredContacts (day + 1)) = true
  ∧ may_overlap (CallRemoveExpiredContacts (day + 1))
                (CallRemoveExpiredContacts (day + 1)) = true
  ∧ acquires (CallUpsert hash_a peer 0) = Lock
  ∧ may_overlap (CallUpsert hash_a peer 0) (CallGet hash_a 5) = false
  ∧ may_overlap (CallGet hash_a 5) (CallUpsert hash_a peer 0) = false.
Proof.
  split; [reflexivity|]. split.
  - intros H. apply (f_equal (fun s => timestamp s hash_a peer_id)) in H.
    vm_compute in H. discriminate.
  - repeat split; reflexivity.
Qed.

End StoreFacts.
